(** * The DHT component of js-ipfs: [src/core/components/dht.js]

    The component is a facade over two collaborators owned by the node
    ([self]): the local block store ([self.repo.blockstore]) and the DHT
    engine ([self.libp2p.dht]).  Every operation is written in node
    callback style and wrapped by [promisify].

    This development embeds the body of each operation (the arrow function
    handed to [promisify]) and records two things about a call: the calls it
    makes to the collaborators, in the order they are issued, and how it
    settles (which completion callback it invokes and with what, whether an
    exception escapes, or whether nothing happens at all). *)

From stdpp Require Import base strings list gmap.

Open Scope string_scope.

(** ** Data *)

(** Identifiers, addresses and buffers are opaque to the facade; only their
    identity matters. *)
Definition CID := string.
Definition Multiaddr := string.
Definition Buffer := string.

(** A [PeerId] object; the engine's closest-peers query takes its [id]. *)
Record PeerId := { id : Buffer }.

(** JavaScript error objects, by constructor. *)
Inductive JsError :=
| Error (message : string)
| ReferenceError (message : string)
| TypeError (message : string).

(** The arguments of a node-style callback: [cb(err)] or [cb(null, value)]. *)
Inductive answer (A : Type) :=
| Failure (err : JsError)
| Success (value : A).
Arguments Failure {A} err.
Arguments Success {A} value.

(** [peer-info]: a record carries a [MultiaddrSet]; [toArray] hands out the
    addresses as a plain array, in the order they are held. *)
Record MultiaddrSet := { _multiaddrs : list Multiaddr }.
Record PeerInfo := { peer_id : PeerId; multiaddrs : MultiaddrSet }.

Definition toArray (s : MultiaddrSet) : list Multiaddr := _multiaddrs s.

(** The JavaScript values that can stand in the [options] and [callback]
    positions of [provide]. Functions are identified by a name. *)
#[warnings="-register-all"]
Inductive jsval :=
| JUndefined
| JNull
| JBool (b : bool)
| JString (s : string)
| JFunction (f : string)
| JObject (props : list (string * jsval)).

(** [typeof v === 'function'] *)
Definition typeof_function (v : jsval) : bool :=
  match v with JFunction _ => true | _ => false end.

(** Truthiness, as tested by [if (v)] and [v || w]. *)
Definition truthy (v : jsval) : bool :=
  match v with
  | JUndefined | JNull => false
  | JBool b => b
  | JString s => negb (String.eqb s "")
  | JFunction _ | JObject _ => true
  end.

Fixpoint assoc (x : string) (props : list (string * jsval)) : option jsval :=
  match props with
  | [] => None
  | (y, v) :: rest => if String.eqb x y then Some v else assoc x rest
  end.

(** [v.x]: reading a property of [undefined] or [null] throws a TypeError
    ([None] here); a missing property reads as [undefined]. *)
Definition get_property (v : jsval) (x : string) : option jsval :=
  match v with
  | JUndefined | JNull => None
  | JObject props => Some (default JUndefined (assoc x props))
  | JBool _ | JString _ | JFunction _ => Some JUndefined
  end.

(** The first argument of [provide] is documented as [CID|Array<CID>]. *)
Inductive keys_arg :=
| OneCID (k : CID)
| CIDArray (l : list CID).

(** ** The node and its collaborators *)

(** [self]: what each collaborator answers, through its callback, to each
    request. *)
Record Node := {
  blockstore_has : CID → answer bool;             (* self.repo.blockstore.has *)
  dht_getClosestPeers : Buffer → answer (list PeerId);
  dht_findProviders : CID → answer (list PeerInfo);
  dht_findPeer : PeerId → answer PeerInfo;
  dht_get : Buffer → answer Buffer;
  dht_put : Buffer → Buffer → answer unit;
  dht_provide : CID → answer unit                 (* self.libp2p.dht.provide *)
}.

(** A call issued to a collaborator. *)
Inductive call :=
| BlockstoreHas (key : CID)
| DhtGetClosestPeers (id : Buffer)
| DhtFindProviders (key : CID)
| DhtFindPeer (peer : PeerId)
| DhtGet (key : Buffer)
| DhtPut (key value : Buffer)
| DhtProvide (cid : CID).

(** How a call to the facade settles. *)
Inductive completion (A : Type) :=
| Called (f : string) (args : answer A)   (* the function [f] is invoked as callback *)
| Threw (exn : JsError)                   (* an exception escapes; no callback is invoked *)
| Pending.                                (* no callback is ever invoked *)
Arguments Called {A} f args.
Arguments Threw {A} exn.
Arguments Pending {A}.

Record behaviour (A : Type) := {
  calls : list call;
  settled : completion A
}.
Arguments calls {A} b.
Arguments settled {A} b.

(** An asynchronous request: the call it issues and what the collaborator
    later passes to the request's callback. *)
Record task (A : Type) := { issued : call; reply : answer A }.
Arguments issued {A} t.
Arguments reply {A} t.

(** ** The runtime: completion order and the global object *)

(** The requests of one fan-out are all in flight at once and complete in an
    order the facade does not control: some rearrangement of the order in
    which they were issued. *)
Record Scheduler := {
  arrival : list CID → list CID;
  arrival_perm : ∀ l, arrival l ≡ₚ l
}.

(** [globals] holds the array-valued properties of the global object, the
    scope in which an identifier that no enclosing function or module
    declares is looked up. *)
Record Runtime := {
  globals : gmap string (list CID);
  has_order : Scheduler;
  provide_order : Scheduler
}.

(** ** The [async] helpers

    Collaborators answer asynchronously: the loop of a fan-out has issued
    every request before the first answer arrives. *)

(** What [async/every] passes to its final callback, given the iteratee's
    answers in the order they arrive: the first error, or [false] at the
    first falsy answer, whichever arrives first; [true] once every answer has
    arrived truthy (at once for an empty collection). The final callback is
    guarded to run once, so later arrivals change nothing. *)
Fixpoint every_join (arrived : list (answer bool)) : answer bool :=
  match arrived with
  | [] => Success true
  | Failure err :: _ => Failure err
  | Success false :: _ => Success false
  | Success true :: rest => every_join rest
  end.

(** What [async/each] passes to its final callback: the first error to
    arrive, or nothing once every iteratee has completed. *)
Fixpoint each_join (arrived : list (answer unit)) : answer unit :=
  match arrived with
  | [] => Success ()
  | Failure err :: _ => Failure err
  | Success _ :: rest => each_join rest
  end.

(** [every(coll, iteratee, k)]: every request is issued, in collection order;
    [k] receives the joined answer. *)
Definition every {A} (s : Scheduler) (coll : list CID) (iteratee : CID → task bool)
    (k : answer bool → behaviour A) : behaviour A :=
  let b := k (every_join ((reply ∘ iteratee) <$> arrival s coll)) in
  {| calls := ((issued ∘ iteratee) <$> coll) ++ calls b; settled := settled b |}.

(** [each(coll, iteratee, k)] *)
Definition each {A} (s : Scheduler) (coll : list CID) (iteratee : CID → task unit)
    (k : answer unit → behaviour A) : behaviour A :=
  let b := k (each_join ((reply ∘ iteratee) <$> arrival s coll)) in
  {| calls := ((issued ∘ iteratee) <$> coll) ++ calls b; settled := settled b |}.

(** ** Settling *)

(** [callback(...)]: calling something that is not a function throws. *)
Definition invoke {A} (callback : jsval) (args : answer A) : behaviour A :=
  match callback with
  | JFunction f => {| calls := []; settled := Called f args |}
  | _ => {| calls := []; settled := Threw (TypeError "callback is not a function") |}
  end.

(** A callback handed to an [async] helper goes through [callback || noop]. *)
Definition invoke_or_noop {A} (callback : jsval) (args : answer A) : behaviour A :=
  if truthy callback then invoke callback args
  else {| calls := []; settled := Pending |}.

Definition throw {A} (exn : JsError) : behaviour A :=
  {| calls := []; settled := Threw exn |}.

Definition idle {A} : behaviour A :=
  {| calls := []; settled := Pending |}.

(** A request whose callback is the caller's own. *)
Definition delegate {A} (t : task A) (callback : string) : behaviour A :=
  {| calls := [issued t]; settled := Called callback (reply t) |}.

(** ** The facade *)

Section Facade.
Variable rt : Runtime.
Variable self : Node.



Definition findpeer (peer : PeerId) (callback : string) : behaviour (list Multiaddr) :=
  {| calls := [DhtFindPeer peer];
     settled :=
       match dht_findPeer self peer with
       | Failure err => Called callback (Failure err)
       | Success info => Called callback (Success (toArray (multiaddrs info)))
       end |}.

Definition get (key : Buffer) (callback : string) : behaviour Buffer :=
  delegate {| issued := DhtGet key; reply := dht_get self key |} callback.


(** [if (!Array.isArray(keys)) { keys = [keys] }] *)
Definition normalize_keys (keys : keys_arg) : list CID :=
  match keys with
  | CIDArray l => l        (* an array is left as it is *)
  | OneCID k => [k]
  end.

Definition not_local : JsError :=
  Error "Not all blocks exist locally, can not provide".

(** [if (typeof options === 'function') { callback = options; options = {} }] *)
Definition effective_callback (options callback : jsval) : jsval :=
  if typeof_function options then options else callback.

Definition effective_options (options : jsval) : jsval :=
  if typeof_function options then JObject [] else options.

(** The callback handed to [every] (lines 91 to 106): the gate on the
    local check, then the branch on [options.recursive]. The announce
    fan-out iterates over [cids], a name that nothing in the file binds
    (the parameters in scope are [keys], [options], [callback], [err] and
    [has]): it is read from the global object, and reading an undeclared
    name throws. *)
Definition announce_if_local (options callback : jsval) (r : answer bool) : behaviour unit :=
  match r with
  | Failure err => invoke callback (Failure err)
  | Success has =>
      if negb has then invoke callback (Failure not_local)
      else
        match get_property options "recursive" with
        | None => throw (TypeError "Cannot read property 'recursive'")
        | Some recursive =>
            if truthy recursive then
              (* TODO: Implement recursive providing *)
              idle
            else
              match globals rt !! "cids" with
              | None => throw (ReferenceError "cids is not defined")
              | Some cids =>
                  each (provide_order rt) cids
                    (λ cid, {| issued := DhtProvide cid; reply := dht_provide self cid |})
                    (invoke_or_noop callback)
              end
        end
  end.

Definition provide (keys : keys_arg) (options callback : jsval) : behaviour unit :=
  let keys := normalize_keys keys in
  let callback := effective_callback options callback in
  let options := effective_options options in
  every (has_order rt) keys
    (λ key, {| issued := BlockstoreHas key; reply := blockstore_has self key |})
    (announce_if_local options callback).

(** The block is in the local store ([has] answers [true]), is not
    ([false]), or the store answers at all (no error). *)
Definition present (key : CID) : Prop := blockstore_has self key = Success true.
Definition absent (key : CID) : Prop := blockstore_has self key = Success false.
Definition answered (key : CID) : Prop := ∃ b, blockstore_has self key = Success b.

End Facade.


(** [get] as the specification words it: the engine's key lookup is asked
    once; its value is returned unchanged when it succeeds, and its error is
    the failure when it fails. *)
Definition get_spec (self : Node) (key : Buffer) (callback : string) : behaviour Buffer :=
  {| calls := [DhtGet key];
     settled :=
       match dht_get self key with
       | Success value => Called callback (Success value)
       | Failure err => Called callback (Failure err)
       end |}.

(** ** Concrete runtimes and nodes *)

(** Answers arrive in the order the requests were issued, or in the
    opposite order. *)
Definition fifo : Scheduler :=
  {| arrival := λ l, l; arrival_perm := λ l, reflexivity l |}.
Definition lifo : Scheduler :=
  {| arrival := reverse; arrival_perm := reverse_Permutation |}.

(** A runtime whose global object has no property named [cids]. *)
Definition plain_runtime : Runtime :=
  {| globals := ∅; has_order := fifo; provide_order := fifo |}.

(** A runtime whose global object has an array named [cids]; answers arrive
    in the opposite order of the requests. *)
Definition runtime_with_cids (cids : list CID) : Runtime :=
  {| globals := {["cids" := cids]}; has_order := lifo; provide_order := lifo |}.

(** A store holding exactly [blocks], which never errors. *)
Definition store_of (blocks : gset CID) (key : CID) : answer bool :=
  Success (bool_decide (key ∈ blocks)).

(** A node with the given store and announce behaviour. *)
Definition node_with (has : CID → answer bool) (announce : CID → answer unit) : Node :=
  {| blockstore_has := has;
     dht_getClosestPeers := λ _, Success [];
     dht_findProviders := λ _, Success [];
     dht_findPeer := λ p, Success {| peer_id := p; multiaddrs := {| _multiaddrs := [] |} |};
     dht_get := λ _, Success "hello";
     dht_put := λ _ _, Success ();
     dht_provide := announce |}.

Definition engine_ok (cid : CID) : answer unit := Success ().

(** A store that holds nothing and fails to read ["A"]. *)
Definition store_failing_A (key : CID) : answer bool :=
  if String.eqb key "A" then Failure (Error "EIO") else Success false.

Definition some_peer : PeerId := {| id := "QmPeer" |}.

(** A node whose engine knows one peer record with the given addresses and
    fails every other lookup. *)
Definition node_knowing (peer : PeerId) (addrs : list Multiaddr) : Node :=
  {| blockstore_has := store_of ∅;
     dht_getClosestPeers := λ _, Success [];
     dht_findProviders := λ _, Success [];
     dht_findPeer := λ p,
       if String.eqb (id p) (id peer)
       then Success {| peer_id := p; multiaddrs := {| _multiaddrs := addrs |} |}
       else Failure (Error "not found");
     dht_get := λ _, Failure (Error "not found");
     dht_put := λ _ _, Success ();
     dht_provide := engine_ok |}.

(** An engine that cannot announce ["B"]. *)
Definition engine_rejects_B (cid : CID) : answer unit :=
  if String.eqb cid "B" then Failure (Error "no route") else Success ().

(** ** The paths through [provide]

    The five ways a call can go, by what the local check reports and what
    the continuation finds: the gate is closed (the check reports an error or
    [false]); [options] has no properties to read; the recursive branch; the
    reference to an undeclared [cids]; the announce fan-out over a global
    [cids]. *)
Inductive provide_path (rt : Runtime) (self : Node) (keys : list CID)
    (options callback : jsval) : behaviour unit → Prop :=
| path_closed (err : JsError) :
    (err = not_local ∨ ∃ k, k ∈ keys ∧ blockstore_has self k = Failure err) →
    (∃ k, k ∈ keys ∧ ¬ present self k) →
    provide_path rt self keys options callback
      {| calls := BlockstoreHas <$> keys; settled := settled (invoke callback (Failure err)) |}
| path_nullish :
    (∀ k, k ∈ keys → present self k) →
    get_property options "recursive" = None →
    provide_path rt self keys options callback
      {| calls := BlockstoreHas <$> keys;
         settled := Threw (TypeError "Cannot read property 'recursive'") |}
| path_recursive (recursive : jsval) :
    (∀ k, k ∈ keys → present self k) →
    get_property options "recursive" = Some recursive → truthy recursive = true →
    provide_path rt self keys options callback
      {| calls := BlockstoreHas <$> keys; settled := Pending |}
| path_undeclared (recursive : jsval) :
    (∀ k, k ∈ keys → present self k) →
    get_property options "recursive" = Some recursive → truthy recursive = false →
    globals rt !! "cids" = None →
    provide_path rt self keys options callback
      {| calls := BlockstoreHas <$> keys;
         settled := Threw (ReferenceError "cids is not defined") |}
| path_announce (recursive : jsval) (cids : list CID) :
    (∀ k, k ∈ keys → present self k) →
    get_property options "recursive" = Some recursive → truthy recursive = false →
    globals rt !! "cids" = Some cids →
    provide_path rt self keys options callback
      {| calls := (BlockstoreHas <$> keys) ++ (DhtProvide <$> cids);
         settled := settled (invoke_or_noop callback
                      (each_join (dht_provide self <$> arrival (provide_order rt) cids))) |}.

(** ** The joins *)

Section Joins.

(** [every] reports [true] when every answer is [true], in any order. *)
Lemma every_join_true (l : list (answer bool)) :
  (∀ a, a ∈ l → a = Success true) → every_join l = Success true.
Proof.
  induction l as [|a l IH]; intros Hall; [done|].
  rewrite (Hall a) by apply list_elem_of_here. simpl.
  apply IH. intros b Hb. apply Hall. by apply list_elem_of_further.
Qed.

(** When no check errors, one [false] anywhere makes the join [false]. *)
Lemma every_join_false (l : list (answer bool)) :
  (∀ a, a ∈ l → ∃ b, a = Success b) → Success false ∈ l →
  every_join l = Success false.
Proof.
  induction l as [|a l IH]; intros Hok Hin.
  - by apply elem_of_nil in Hin.
  - destruct (Hok a) as [[] ->]; [apply list_elem_of_here| |done].
    simpl. apply IH.
    + intros b Hb. apply Hok. by apply list_elem_of_further.
    + apply elem_of_cons in Hin as [Heq|Hin]; [discriminate|done].
Qed.

(** The join of [every] is one of the answers, or [true]. *)
Lemma every_join_cases (l : list (answer bool)) :
  every_join l = Success true ∨ every_join l ∈ l.
Proof.
  induction l as [|[err|[]] l IH]; simpl.
  - by left.
  - right. apply list_elem_of_here.
  - destruct IH as [IH|IH]; [by left|right; by apply list_elem_of_further].
  - right. apply list_elem_of_here.
Qed.

(** [each] succeeds exactly when every iteratee does. *)
Lemma each_join_success (l : list (answer unit)) :
  each_join l = Success () ↔ ∀ a, a ∈ l → a = Success ().
Proof.
  induction l as [|[err|[]] l IH]; simpl.
  - split; [|done]. intros _ a Ha. by apply elem_of_nil in Ha.
  - split; [done|]. intros Hall. apply Hall, list_elem_of_here.
  - rewrite IH. split.
    + intros Hall a [->|Ha]%elem_of_cons; [done|by apply Hall].
    + intros Hall a Ha. by apply Hall, list_elem_of_further.
Qed.

(** When [each] fails, it fails with the error of one of the iteratees. *)
Lemma each_join_failure (l : list (answer unit)) (err : JsError) :
  each_join l = Failure err → Failure err ∈ l.
Proof.
  induction l as [|[e|[]] l IH]; simpl; intros H; [done| |].
  - injection H as ->. apply list_elem_of_here.
  - by apply list_elem_of_further, IH.
Qed.

(** Answers in arrival order are the answers of the issued requests. *)
Lemma arrived_elem_of {A} (s : Scheduler) (f : CID → A) (coll : list CID) (a : A) :
  a ∈ f <$> arrival s coll ↔ ∃ k, k ∈ coll ∧ a = f k.
Proof.
  rewrite list_elem_of_fmap. split; intros (k & H1 & H2); exists k.
  - rewrite (arrival_perm s coll) in H2. done.
  - rewrite (arrival_perm s coll). done.
Qed.

End Joins.

(** ** The local check of [provide] *)

Section Provide.
Variable rt : Runtime.
Variable self : Node.

(** [provide] is the local check followed by the gated announce. *)
Lemma provide_unfold (keys : keys_arg) (options callback : jsval) :
  provide rt self keys options callback =
  let b := announce_if_local rt self (effective_options options)
             (effective_callback options callback)
             (every_join (blockstore_has self <$> arrival (has_order rt) (normalize_keys keys))) in
  {| calls := (BlockstoreHas <$> normalize_keys keys) ++ calls b; settled := settled b |}.
Proof. reflexivity. Qed.

Lemma local_check_all_present (keys : list CID) :
  (∀ k, k ∈ keys → present self k) →
  every_join (blockstore_has self <$> arrival (has_order rt) keys) = Success true.
Proof.
  intros Hall. apply every_join_true. intros a (k & Hk & ->)%arrived_elem_of.
  by apply Hall.
Qed.

Lemma local_check_some_absent (keys : list CID) :
  (∀ k, k ∈ keys → answered self k) →
  (∃ k, k ∈ keys ∧ absent self k) →
  every_join (blockstore_has self <$> arrival (has_order rt) keys) = Success false.
Proof.
  intros Hans (k & Hk & Hab). apply every_join_false.
  - intros a (k' & Hk' & ->)%arrived_elem_of. by apply Hans.
  - apply arrived_elem_of. exists k. by rewrite Hab.
Qed.

(** Whatever the block store answers, an absent block closes the gate:
    the announce fan-out is not reached. *)
Lemma local_check_not_true (keys : list CID) :
  (∃ k, k ∈ keys ∧ absent self k) →
  every_join (blockstore_has self <$> arrival (has_order rt) keys) ≠ Success true.
Proof.
  intros (k & Hk & Hab).
  assert (Hin : Success false ∈ blockstore_has self <$> arrival (has_order rt) keys).
  { apply arrived_elem_of. exists k. by rewrite Hab. }
  induction (blockstore_has self <$> arrival (has_order rt) keys) as [|[e|[]] l IH];
    simpl; [by apply elem_of_nil in Hin|done| |done].
  apply IH. apply elem_of_cons in Hin as [?|?]; [discriminate|done].
Qed.

(** When the gate closes, the callback receives the error of the gate or an
    error the store gave for one of the keys. *)
Lemma local_check_closed (keys : list CID) :
  every_join (blockstore_has self <$> arrival (has_order rt) keys) ≠ Success true →
  every_join (blockstore_has self <$> arrival (has_order rt) keys) = Success false
  ∨ ∃ k err, k ∈ keys ∧ blockstore_has self k = Failure err
      ∧ every_join (blockstore_has self <$> arrival (has_order rt) keys) = Failure err.
Proof.
  intros Hne. destruct (every_join_cases (blockstore_has self <$> arrival (has_order rt) keys))
    as [Heq|Hin]; [done|].
  destruct (every_join _) as [err|[]] eqn:Hj; [right|done|by left].
  apply arrived_elem_of in Hin as (k & Hk & Hans). by exists k, err.
Qed.

Lemma has_calls_no_announce (keys : list CID) (c : CID) :
  DhtProvide c ∉ BlockstoreHas <$> keys.
Proof. intros (k & Heq & _)%list_elem_of_fmap. discriminate. Qed.

(** With an absent block the callback receives a failure: the error of the
    gate, or an error of the store that arrived before any [false]. *)
Lemma provide_absent_settles (keys : keys_arg) (options callback : jsval) (f : string) :
  effective_callback options callback = JFunction f →
  (∃ k, k ∈ normalize_keys keys ∧ absent self k) →
  settled (provide rt self keys options callback) = Called f (Failure not_local)
  ∨ ∃ k err, k ∈ normalize_keys keys ∧ blockstore_has self k = Failure err
      ∧ settled (provide rt self keys options callback) = Called f (Failure err).
Proof.
  intros Hf Habs. rewrite provide_unfold. simpl.
  destruct (local_check_closed _ (local_check_not_true _ Habs))
    as [->|(k & err & Hk & Hans & ->)]; simpl; rewrite Hf; simpl.
  - by left.
  - right. by exists k, err.
Qed.

End Provide.

(** ** The announce branch of [provide] *)

Section Announce.
Variable rt : Runtime.
Variable self : Node.
Variable keys : keys_arg.
Variables options callback : jsval.

Hypothesis all_present : ∀ k, k ∈ normalize_keys keys → present self k.

(** With every block present the gate opens and [options.recursive] is
    read. When it is falsy and the global object has no [cids], the
    reference on line 102 throws before [each] is entered: the store was
    asked about every key, the engine about none, and no callback runs. *)
Lemma provide_nonrecursive_throws (recursive : jsval) :
  globals rt !! "cids" = None →
  get_property (effective_options options) "recursive" = Some recursive →
  truthy recursive = false →
  provide rt self keys options callback =
  {| calls := BlockstoreHas <$> normalize_keys keys;
     settled := Threw (ReferenceError "cids is not defined") |}.
Proof.
  intros Hg Hp Ht. rewrite provide_unfold, local_check_all_present by done.
  simpl. rewrite Hp, Ht, Hg. simpl. by rewrite app_nil_r.
Qed.

(** The fan-out itself is in place: were [cids] a global array, each of
    its elements would be announced once and the callback would receive
    the join of the engine's answers. It is that array, not [keys], that
    would be announced. *)
Lemma provide_nonrecursive_global (recursive : jsval) (cids : list CID) (f : string) :
  globals rt !! "cids" = Some cids →
  get_property (effective_options options) "recursive" = Some recursive →
  truthy recursive = false →
  effective_callback options callback = JFunction f →
  provide rt self keys options callback =
  {| calls := (BlockstoreHas <$> normalize_keys keys) ++ (DhtProvide <$> cids);
     settled := Called f (each_join (dht_provide self <$> arrival (provide_order rt) cids)) |}.
Proof.
  intros Hg Hp Ht Hf. rewrite provide_unfold, local_check_all_present by done.
  simpl. rewrite Hp, Ht, Hg, Hf. unfold each. simpl. by rewrite app_nil_r.
Qed.

(** In that case the call succeeds exactly when the engine accepts every
    announce, in whatever order the engine answers. *)
Lemma provide_nonrecursive_global_success (recursive : jsval) (cids : list CID) (f : string) :
  globals rt !! "cids" = Some cids →
  get_property (effective_options options) "recursive" = Some recursive →
  truthy recursive = false →
  effective_callback options callback = JFunction f →
  settled (provide rt self keys options callback) = Called f (Success ())
  ↔ ∀ c, c ∈ cids → dht_provide self c = Success ().
Proof.
  intros Hg Hp Ht Hf. rewrite (provide_nonrecursive_global _ _ _ Hg Hp Ht Hf). simpl.
  split.
  - intros Heq c Hc. injection Heq as Heq.
    apply (proj1 (each_join_success _) Heq), arrived_elem_of. by exists c.
  - intros Hall. f_equal. apply each_join_success.
    intros a (c & Hc & ->)%arrived_elem_of. by apply Hall.
Qed.

End Announce.

(** ** Properties of the facade *)

(** C1, evaluated on the code. The store holds A and B, the engine accepts
    every announce, and [provide([A, B], {}, done)] is called: the store is
    asked about A and B, then the read of the undeclared [cids] throws. The
    engine receives no announce and [done] is not invoked. *)
Example provide_present_pair_throws :
  provide plain_runtime (node_with (store_of {["A"; "B"]}) engine_ok)
    (CIDArray ["A"; "B"]) (JObject []) (JFunction "done")
  = {| calls := [BlockstoreHas "A"; BlockstoreHas "B"];
       settled := Threw (ReferenceError "cids is not defined") |}.
Proof. vm_compute. reflexivity. Qed.

(** Were a global [cids] defined, its elements would be announced, not the
    keys that were checked. *)
Example provide_announces_global_cids :
  provide {| globals := {["cids" := ["X"; "Y"]]}; has_order := fifo; provide_order := lifo |}
    (node_with (store_of {["A"]}) engine_ok) (OneCID "A") (JFunction "done") JUndefined
  = {| calls := [BlockstoreHas "A"; DhtProvide "X"; DhtProvide "Y"];
       settled := Called "done" (Success ()) |}.
Proof. vm_compute. reflexivity. Qed.

(** C2. When at least one of the given identifiers is absent from the
    store, no announce is issued to the engine, whatever the store answers
    for the others and in whatever order the answers arrive; and when the
    store answers every check, [provide] fails with the error "Not all
    blocks exist locally, can not provide". *)
Theorem provide_absent_fails (rt : Runtime) (self : Node) (keys : keys_arg)
    (options callback : jsval) (f : string) :
  (∃ k, k ∈ normalize_keys keys ∧ absent self k) →
  (∀ c, DhtProvide c ∉ calls (provide rt self keys options callback))
  ∧ (effective_callback options callback = JFunction f →
     (∀ k, k ∈ normalize_keys keys → answered self k) →
     settled (provide rt self keys options callback) = Called f (Failure not_local)).
Proof.
  intros Habs. rewrite provide_unfold. split.
  - intros c. simpl.
    pose proof (local_check_not_true rt self _ Habs) as Hne.
    destruct (every_join _) as [err|[]]; [|done|]; simpl;
      (destruct (effective_callback options callback); simpl;
       rewrite app_nil_r; apply has_calls_no_announce).
  - intros Hf Hans.
    rewrite (local_check_some_absent rt self _ Hans Habs). simpl. by rewrite Hf.
Qed.

Lemma provide_absent_fails_witness :
  let b := provide plain_runtime (node_with (store_of {["A"]}) engine_ok)
             (CIDArray ["A"; "B"]) (JObject []) (JFunction "done") in
  (∀ c, DhtProvide c ∉ calls b) ∧ settled b = Called "done" (Failure not_local).
Proof.
  destruct (provide_absent_fails plain_runtime (node_with (store_of {["A"]}) engine_ok)
              (CIDArray ["A"; "B"]) (JObject []) (JFunction "done") "done")
    as [Hcalls Hsettled].
  - exists "B". split.
    + apply list_elem_of_further, list_elem_of_here.
    + vm_compute. reflexivity.
  - split; [exact Hcalls|]. apply Hsettled.
    + reflexivity.
    + intros k _. exists (bool_decide (k ∈ ({["A"]} : gset CID))). reflexivity.
Defined.

(** A store error takes the place of the gate's error when it arrives
    first: the store fails on A and lacks B. *)
Example provide_store_error_first :
  settled (provide plain_runtime (node_with store_failing_A engine_ok)
             (CIDArray ["A"; "B"]) (JObject []) (JFunction "done"))
  = Called "done" (Failure (Error "EIO"))
  ∧ settled (provide {| globals := ∅; has_order := lifo; provide_order := fifo |}
               (node_with store_failing_A engine_ok)
               (CIDArray ["A"; "B"]) (JObject []) (JFunction "done"))
    = Called "done" (Failure not_local).
Proof. split; vm_compute; reflexivity. Qed.

(** C3, evaluated on the code. The store holds A and
    [provide([A], {recursive: true}, done)] is called: after the local check
    nothing more happens. Neither A nor anything linked from it is
    announced, and [done] is not invoked. *)
Example provide_recursive_announces_nothing :
  provide plain_runtime (node_with (store_of {["A"]}) engine_ok)
    (CIDArray ["A"]) (JObject [("recursive", JBool true)]) (JFunction "done")
  = {| calls := [BlockstoreHas "A"]; settled := Pending |}.
Proof. vm_compute. reflexivity. Qed.

(** C4, evaluated on the code. [provide([], {}, done)]: the local check
    holds at once, and the read of the undeclared [cids] throws. The call
    does not succeed; [done] is not invoked. *)
Example provide_empty_throws :
  provide plain_runtime (node_with (store_of ∅) engine_ok)
    (CIDArray []) (JObject []) (JFunction "done")
  = {| calls := []; settled := Threw (ReferenceError "cids is not defined") |}.
Proof. vm_compute. reflexivity. Qed.

(** C5, evaluated on the code. The store holds A and B and the engine
    cannot announce B. [provide([A, B], {}, done)] throws the ReferenceError
    for [cids] before any announce is issued: [done] never receives the
    engine's error. *)
Example provide_engine_failure_unreached :
  dht_provide (node_with (store_of {["A"; "B"]}) engine_rejects_B) "B"
    = Failure (Error "no route")
  ∧ provide plain_runtime (node_with (store_of {["A"; "B"]}) engine_rejects_B)
      (CIDArray ["A"; "B"]) (JObject []) (JFunction "done")
    = {| calls := [BlockstoreHas "A"; BlockstoreHas "B"];
         settled := Threw (ReferenceError "cids is not defined") |}.
Proof. split; vm_compute; reflexivity. Qed.

(** C6. [provide] called with the single identifier [k] behaves as
    [provide] called with the array [[k]]: the same calls to the store and
    the engine in the same order, and the same settlement, for every
    [options] and [callback]. *)
Theorem provide_single_as_array (rt : Runtime) (self : Node) (k : CID)
    (options callback : jsval) :
  provide rt self (OneCID k) options callback
  = provide rt self (CIDArray [k]) options callback.
Proof. rewrite !provide_unfold. reflexivity. Qed.

(** C7. When the engine's lookup yields a record, [findpeer] asks the engine
    once and passes the record's addresses, as an array in the order they
    are held, to the callback as a success; a record without addresses gives
    the empty array, a success as well. *)
Theorem findpeer_addresses (self : Node) (peer : PeerId) (callback : string)
    (info : PeerInfo) :
  dht_findPeer self peer = Success info →
  findpeer self peer callback
  = {| calls := [DhtFindPeer peer];
       settled := Called callback (Success (toArray (multiaddrs info))) |}
  ∧ (_multiaddrs (multiaddrs info) = [] →
     settled (findpeer self peer callback) = Called callback (Success [])).
Proof.
  intros Hinfo. unfold findpeer, toArray. rewrite Hinfo. split; [done|].
  simpl. by intros ->.
Qed.

Lemma findpeer_addresses_witness :
  findpeer (node_knowing some_peer []) some_peer "done"
  = {| calls := [DhtFindPeer some_peer]; settled := Called "done" (Success []) |}
  ∧ settled (findpeer (node_knowing some_peer []) some_peer "done")
    = Called "done" (Success []).
Proof.
  destruct (findpeer_addresses (node_knowing some_peer []) some_peer "done"
              {| peer_id := some_peer; multiaddrs := {| _multiaddrs := [] |} |})
    as [Hshape Hempty].
  - reflexivity.
  - split; [exact Hshape|]. apply Hempty. reflexivity.
Defined.

(** The addresses come out in the order the record holds them, and a failed
    lookup is passed on as it is. *)
Example findpeer_two_addresses :
  findpeer (node_knowing some_peer ["/ip4/127.0.0.1/tcp/4001"; "/ip6/::1/tcp/4001"])
    some_peer "done"
  = {| calls := [DhtFindPeer some_peer];
       settled := Called "done" (Success ["/ip4/127.0.0.1/tcp/4001"; "/ip6/::1/tcp/4001"]) |}.
Proof. reflexivity. Qed.

Example findpeer_unknown_peer :
  findpeer (node_knowing some_peer []) {| id := "QmOther" |} "done"
  = {| calls := [DhtFindPeer {| id := "QmOther" |}];
       settled := Called "done" (Failure (Error "not found")) |}.
Proof. reflexivity. Qed.

(** C8. [get] is the engine's [get]: it asks the engine once for the key and
    the callback receives the engine's answer as it is, value or error. It
    coincides with [get_spec], the operation as the specification words
    it. *)
Theorem get_delegates (self : Node) (key : Buffer) (callback : string) :
  get self key callback = get_spec self key callback
  ∧ get self key callback
    = {| calls := [DhtGet key]; settled := Called callback (dht_get self key) |}.
Proof.
  unfold get, get_spec, delegate. simpl. split; [|done].
  by destruct (dht_get self key).
Qed.

Example get_hello :
  get (node_with (store_of ∅) engine_ok) "/foo/bar" "done"
  = {| calls := [DhtGet "/foo/bar"]; settled := Called "done" (Success "hello") |}.
Proof. reflexivity. Qed.

Example get_not_found :
  get (node_knowing some_peer []) "/foo/bar" "done"
  = {| calls := [DhtGet "/foo/bar"]; settled := Called "done" (Failure (Error "not found")) |}.
Proof. reflexivity. Qed.

(** C9. With a function in the options position, that function becomes the
    callback and the options become the empty object, whose [recursive] is
    falsy: the call behaves as [provide(keys, {}, f)], whatever stands in
    the third position. *)
Theorem provide_options_omitted (rt : Runtime) (self : Node) (keys : keys_arg)
    (f : string) (third : jsval) :
  provide rt self keys (JFunction f) third
  = provide rt self keys (JObject []) (JFunction f)
  ∧ effective_callback (JFunction f) third = JFunction f
  ∧ effective_options (JFunction f) = JObject []
  ∧ truthy <$> get_property (effective_options (JFunction f)) "recursive" = Some false.
Proof. repeat split. Qed.

(** C10. When [options.recursive] is truthy and every given identifier is
    present, [provide] asks the store about each identifier and then does
    nothing: no announce is issued to the engine, no callback is invoked and
    no exception is raised. *)
Theorem provide_recursive_pending (rt : Runtime) (self : Node) (keys : keys_arg)
    (options callback recursive : jsval) :
  get_property (effective_options options) "recursive" = Some recursive →
  truthy recursive = true →
  (∀ k, k ∈ normalize_keys keys → present self k) →
  provide rt self keys options callback
  = {| calls := BlockstoreHas <$> normalize_keys keys; settled := Pending |}
  ∧ ∀ c, DhtProvide c ∉ calls (provide rt self keys options callback).
Proof.
  intros Hp Ht Hall.
  assert (Heq : provide rt self keys options callback
                = {| calls := BlockstoreHas <$> normalize_keys keys; settled := Pending |}).
  { rewrite provide_unfold, local_check_all_present by done.
    simpl. rewrite Hp, Ht. simpl. by rewrite app_nil_r. }
  split; [done|]. intros c. rewrite Heq. apply has_calls_no_announce.
Qed.

Lemma provide_recursive_pending_witness :
  let b := provide {| globals := {["cids" := ["A"; "B"]]}; has_order := lifo; provide_order := fifo |}
             (node_with (store_of {["A"; "B"]}) engine_ok)
             (CIDArray ["A"; "B"]) (JObject [("recursive", JBool true)]) (JFunction "done") in
  b = {| calls := BlockstoreHas <$> ["A"; "B"]; settled := Pending |}
  ∧ ∀ c, DhtProvide c ∉ calls b.
Proof.
  apply (provide_recursive_pending
           {| globals := {["cids" := ["A"; "B"]]}; has_order := lifo; provide_order := fifo |}
           (node_with (store_of {["A"; "B"]}) engine_ok)
           (CIDArray ["A"; "B"]) (JObject [("recursive", JBool true)]) (JFunction "done")
           (JBool true)).
  - reflexivity.
  - reflexivity.
  - intros k Hk. simpl in Hk.
    apply elem_of_cons in Hk as [->|Hk]; [vm_compute; reflexivity|].
    apply list_elem_of_singleton in Hk as ->. vm_compute; reflexivity.
Defined.

(** ** Further properties of the joins *)

Lemma every_join_true_inv (l : list (answer bool)) :
  every_join l = Success true → ∀ a, a ∈ l → a = Success true.
Proof.
  induction l as [|[err|[]] l IH]; simpl; intros H a Ha; try done.
  - by apply elem_of_nil in Ha.
  - apply elem_of_cons in Ha as [->|Ha]; [done|by apply IH].
Qed.

Lemma every_join_false_inv (l : list (answer bool)) :
  every_join l = Success false → Success false ∈ l.
Proof.
  induction l as [|[err|[]] l IH]; simpl; intros H; try done.
  - by apply list_elem_of_further, IH.
  - apply list_elem_of_here.
Qed.

Lemma every_join_failure_inv (l : list (answer bool)) (err : JsError) :
  every_join l = Failure err → Failure err ∈ l.
Proof.
  intros H. destruct (every_join_cases l) as [Heq|Hin]; [congruence|].
  by rewrite H in Hin.
Qed.

(** As long as no check errors, the order of arrival does not matter. *)
Lemma every_join_Permutation (l l' : list (answer bool)) :
  l ≡ₚ l' → (∀ a, a ∈ l → ∃ b, a = Success b) → every_join l = every_join l'.
Proof.
  intros Hp Hok.
  assert (Hok' : ∀ a, a ∈ l' → ∃ b, a = Success b).
  { intros a Ha. apply Hok. by rewrite Hp. }
  destruct (every_join l) as [err|[]] eqn:Hj; symmetry.
  - apply every_join_failure_inv, Hok in Hj as [b Hb]. discriminate.
  - apply every_join_true. intros a Ha.
    apply (every_join_true_inv l Hj). by rewrite Hp.
  - apply every_join_false; [done|]. rewrite <- Hp. by apply every_join_false_inv.
Qed.

(** What the gated continuation does when the gate is closed. *)
Lemma announce_if_local_closed (rt : Runtime) (self : Node) (options callback : jsval)
    (r : answer bool) :
  r ≠ Success true →
  ∃ err, (r = Failure err ∨ (r = Success false ∧ err = not_local))
         ∧ announce_if_local rt self options callback r = invoke callback (Failure err).
Proof.
  destruct r as [err|[]]; intros Hne; [|done|].
  - exists err. split; [by left|done].
  - exists not_local. split; [by right|done].
Qed.

Lemma invoke_calls {A} (callback : jsval) (args : answer A) :
  calls (invoke callback args) = [].
Proof. by destruct callback. Qed.

Lemma invoke_called {A} (callback : jsval) (args r : answer A) (g : string) :
  settled (invoke callback args) = Called g r → callback = JFunction g ∧ r = args.
Proof. destruct callback; simpl; intros H; try done. by injection H as -> ->. Qed.

Lemma invoke_or_noop_calls {A} (callback : jsval) (args : answer A) :
  calls (invoke_or_noop callback args) = [].
Proof. unfold invoke_or_noop. destruct (truthy callback); [apply invoke_calls|done]. Qed.

Lemma invoke_or_noop_called {A} (callback : jsval) (args r : answer A) (g : string) :
  settled (invoke_or_noop callback args) = Called g r → callback = JFunction g ∧ r = args.
Proof.
  unfold invoke_or_noop. destruct (truthy callback); [apply invoke_called|done].
Qed.

(** ** Every call to [provide] follows one of the paths *)

Lemma provide_paths (rt : Runtime) (self : Node) (keys : keys_arg) (options callback : jsval) :
  provide_path rt self (normalize_keys keys) (effective_options options)
    (effective_callback options callback) (provide rt self keys options callback).
Proof.
  rewrite provide_unfold. simpl.
  destruct (every_join _) as [err|[]] eqn:Hj; simpl.
  - rewrite invoke_calls, app_nil_r.
    apply every_join_failure_inv, arrived_elem_of in Hj as (k & Hk & Hans).
    apply path_closed; [right|]; exists k; split; try done.
    unfold present. by rewrite <- Hans.
  - assert (Hall : ∀ k, k ∈ normalize_keys keys → present self k).
    { intros k Hk. apply (every_join_true_inv _ Hj), arrived_elem_of. by exists k. }
    destruct (get_property _ _) as [recursive|] eqn:Hp; simpl.
    + destruct (truthy recursive) eqn:Ht; simpl.
      * rewrite app_nil_r. by eapply path_recursive.
      * destruct (globals rt !! "cids") as [cids|] eqn:Hg; simpl.
        -- rewrite invoke_or_noop_calls, app_nil_r. by eapply path_announce.
        -- rewrite app_nil_r. by eapply path_undeclared.
    + rewrite app_nil_r. by apply path_nullish.
  - rewrite invoke_calls, app_nil_r.
    apply every_join_false_inv, arrived_elem_of in Hj as (k & Hk & Hans).
    apply path_closed; [by left|]. exists k. split; [done|].
    unfold present. by rewrite <- Hans.
Qed.

Ltac by_path rt self keys options callback :=
  generalize (provide_paths rt self keys options callback);
  generalize (provide rt self keys options callback);
  intros ? [err Herr Hnot|Hall Hp|recursive Hall Hp Ht|recursive Hall Hp Ht Hg
           |recursive cids Hall Hp Ht Hg]; simpl.

(** ** Further properties of the facade *)

(** X1. In a runtime whose global object has no [cids], [provide] never
    issues an announce to the engine and never reports success, whatever
    its arguments, the store and the engine. *)
Theorem provide_without_global_cids (rt : Runtime) (self : Node) (keys : keys_arg)
    (options callback : jsval) :
  globals rt !! "cids" = None →
  (∀ c, DhtProvide c ∉ calls (provide rt self keys options callback))
  ∧ (∀ f, settled (provide rt self keys options callback) ≠ Called f (Success ())).
Proof.
  intros Hnone. by_path rt self keys options callback;
    try (split; [intros c; apply has_calls_no_announce|done]).
  - split; [intros c; apply has_calls_no_announce|].
    intros f [_ Habs]%invoke_called. discriminate.
  - congruence.
Qed.

Lemma provide_without_global_cids_witness :
  (∀ c, DhtProvide c ∉ calls (provide plain_runtime (node_with (store_of {["A"]}) engine_ok)
                                (OneCID "A") (JFunction "done") JUndefined))
  ∧ (∀ f, settled (provide plain_runtime (node_with (store_of {["A"]}) engine_ok)
                     (OneCID "A") (JFunction "done") JUndefined) ≠ Called f (Success ())).
Proof.
  apply (provide_without_global_cids plain_runtime (node_with (store_of {["A"]}) engine_ok)
           (OneCID "A") (JFunction "done") JUndefined).
  reflexivity.
Defined.

(** X2. When every given identifier is present, [options.recursive] is
    falsy and no global [cids] exists, [provide] asks the store about each
    key, in order, and then throws the ReferenceError for [cids]: no
    callback is invoked. *)
Theorem provide_undeclared_cids (rt : Runtime) (self : Node) (keys : keys_arg)
    (options callback recursive : jsval) :
  (∀ k, k ∈ normalize_keys keys → present self k) →
  get_property (effective_options options) "recursive" = Some recursive →
  truthy recursive = false →
  globals rt !! "cids" = None →
  provide rt self keys options callback
  = {| calls := BlockstoreHas <$> normalize_keys keys;
       settled := Threw (ReferenceError "cids is not defined") |}.
Proof.
  intros Hall Hp Ht Hg. by apply (provide_nonrecursive_throws rt self keys options callback Hall recursive).
Qed.

Lemma provide_undeclared_cids_witness :
  provide plain_runtime (node_with (store_of {["A"; "B"]}) engine_rejects_B)
    (CIDArray ["B"; "A"]) (JObject [("recursive", JBool false)]) (JFunction "done")
  = {| calls := BlockstoreHas <$> ["B"; "A"];
       settled := Threw (ReferenceError "cids is not defined") |}.
Proof.
  apply (provide_undeclared_cids plain_runtime (node_with (store_of {["A"; "B"]}) engine_rejects_B)
           (CIDArray ["B"; "A"]) (JObject [("recursive", JBool false)]) (JFunction "done")
           (JBool false)).
  - intros k Hk. simpl in Hk.
    apply elem_of_cons in Hk as [->|Hk]; [vm_compute; reflexivity|].
    apply list_elem_of_singleton in Hk as ->. vm_compute; reflexivity.
  - reflexivity.
  - reflexivity.
  - reflexivity.
Defined.



(** X4. When the store fails on at least one of the given identifiers and
    reports every other one present, [provide] passes one of the store's
    errors, unchanged, to the callback, and issues no announce. *)
Theorem provide_store_error (rt : Runtime) (self : Node) (keys : keys_arg)
    (options callback : jsval) (f : string) :
  effective_callback options callback = JFunction f →
  (∀ k, k ∈ normalize_keys keys → present self k ∨ ∃ err, blockstore_has self k = Failure err) →
  (∃ k err, k ∈ normalize_keys keys ∧ blockstore_has self k = Failure err) →
  (∃ k err, k ∈ normalize_keys keys ∧ blockstore_has self k = Failure err
            ∧ settled (provide rt self keys options callback) = Called f (Failure err))
  ∧ ∀ c, DhtProvide c ∉ calls (provide rt self keys options callback).
Proof.
  intros Hf Hkeys (k0 & err0 & Hk0 & Herr0).
  assert (Hsome : ¬ ∀ k, k ∈ normalize_keys keys → present self k).
  { intros Hall. specialize (Hall k0 Hk0). unfold present in Hall. congruence. }
  assert (Hjoin : ∃ k err, k ∈ normalize_keys keys ∧ blockstore_has self k = Failure err
            ∧ every_join (blockstore_has self <$> arrival (has_order rt) (normalize_keys keys))
              = Failure err).
  { destruct (every_join _) as [err|[]] eqn:Hj.
    - apply every_join_failure_inv, arrived_elem_of in Hj as (k & Hk & Hans).
      by exists k, err.
    - exfalso. apply Hsome. intros k Hk.
      apply (every_join_true_inv _ Hj), arrived_elem_of. by exists k.
    - apply every_join_false_inv, arrived_elem_of in Hj as (k & Hk & Hans).
      destruct (Hkeys k Hk) as [Hpres|[err Herr]]; unfold present in *; congruence. }
  destruct Hjoin as (k & err & Hk & Herr & Hj).
  rewrite provide_unfold, Hj. simpl. rewrite Hf. simpl. split.
  - by exists k, err.
  - intros c. rewrite app_nil_r. apply has_calls_no_announce.
Qed.

Lemma provide_store_error_witness :
  (∃ k err, k ∈ ["A"; "A"] ∧ store_failing_A k = Failure err
            ∧ settled (provide (runtime_with_cids ["A"]) (node_with store_failing_A engine_ok)
                         (CIDArray ["A"; "A"]) (JFunction "done") JNull)
              = Called "done" (Failure err))
  ∧ ∀ c, DhtProvide c ∉ calls (provide (runtime_with_cids ["A"])
                                 (node_with store_failing_A engine_ok)
                                 (CIDArray ["A"; "A"]) (JFunction "done") JNull).
Proof.
  apply (provide_store_error (runtime_with_cids ["A"]) (node_with store_failing_A engine_ok)
           (CIDArray ["A"; "A"]) (JFunction "done") JNull "done").
  - reflexivity.
  - intros k Hk. right. exists (Error "EIO"). simpl in Hk.
    apply elem_of_cons in Hk as [->|Hk]; [reflexivity|].
    apply list_elem_of_singleton in Hk as ->. reflexivity.
  - exists "A", (Error "EIO"). split; [apply list_elem_of_here|reflexivity].
Defined.

(** X5. Whatever the outcome, [provide] first asks the store about every
    given identifier, once each and in the order given; every call it
    makes afterwards is an announce to the engine. *)
Theorem provide_checks_first (rt : Runtime) (self : Node) (keys : keys_arg)
    (options callback : jsval) :
  ∃ rest : list call,
    calls (provide rt self keys options callback)
    = ((BlockstoreHas <$> normalize_keys keys) ++ rest)%list
    ∧ ∀ c, c ∈ rest → ∃ cid, c = DhtProvide cid.
Proof.
  by_path rt self keys options callback;
    try (exists []; split; [by rewrite app_nil_r|by intros c ?%elem_of_nil]).
  exists (DhtProvide <$> cids). split; [done|].
  intros c (cid & -> & _)%list_elem_of_fmap. by exists cid.
Qed.

(** X6. When the store answers every check, the order in which its answers
    arrive changes nothing: the calls and the settlement are the same under
    any other arrival order of the store's answers. *)
Theorem provide_store_order_irrelevant (rt : Runtime) (s : Scheduler) (self : Node)
    (keys : keys_arg) (options callback : jsval) :
  (∀ k, k ∈ normalize_keys keys → answered self k) →
  provide {| globals := globals rt; has_order := s; provide_order := provide_order rt |}
    self keys options callback
  = provide rt self keys options callback.
Proof.
  intros Hans. rewrite !provide_unfold. simpl.
  rewrite (every_join_Permutation
             (blockstore_has self <$> arrival s (normalize_keys keys))
             (blockstore_has self <$> arrival (has_order rt) (normalize_keys keys))).
  - reflexivity.
  - by rewrite !arrival_perm.
  - intros a (k & Hk & ->)%arrived_elem_of. by apply Hans.
Qed.

Lemma provide_store_order_irrelevant_witness :
  provide {| globals := globals plain_runtime; has_order := lifo;
             provide_order := provide_order plain_runtime |}
    (node_with (store_of {["A"]}) engine_ok) (CIDArray ["A"; "B"]) (JObject []) (JFunction "done")
  = provide plain_runtime
      (node_with (store_of {["A"]}) engine_ok) (CIDArray ["A"; "B"]) (JObject []) (JFunction "done").
Proof.
  apply (provide_store_order_irrelevant plain_runtime lifo (node_with (store_of {["A"]}) engine_ok)
           (CIDArray ["A"; "B"]) (JObject []) (JFunction "done")).
  intros k _. exists (bool_decide (k ∈ ({["A"]} : gset CID))). reflexivity.
Defined.

(** X7. When [options] is [undefined] or [null] and every given identifier
    is present, reading [options.recursive] throws a TypeError after the
    local check: no announce is issued and no callback is invoked. *)
Theorem provide_nullish_options (rt : Runtime) (self : Node) (keys : keys_arg)
    (options callback : jsval) :
  options = JUndefined ∨ options = JNull →
  (∀ k, k ∈ normalize_keys keys → present self k) →
  calls (provide rt self keys options callback) = BlockstoreHas <$> normalize_keys keys
  ∧ ∃ message, settled (provide rt self keys options callback) = Threw (TypeError message).
Proof.
  intros Hopt Hall. rewrite provide_unfold, local_check_all_present by done.
  destruct Hopt as [-> | ->]; simpl; rewrite app_nil_r; eauto.
Qed.

Lemma provide_nullish_options_witness :
  calls (provide (runtime_with_cids ["A"]) (node_with (store_of {["A"]}) engine_ok)
           (OneCID "A") JUndefined (JFunction "done"))
  = BlockstoreHas <$> ["A"]
  ∧ ∃ message, settled (provide (runtime_with_cids ["A"]) (node_with (store_of {["A"]}) engine_ok)
                          (OneCID "A") JUndefined (JFunction "done"))
               = Threw (TypeError message).
Proof.
  apply (provide_nullish_options (runtime_with_cids ["A"]) (node_with (store_of {["A"]}) engine_ok)
           (OneCID "A") JUndefined (JFunction "done")).
  - left. reflexivity.
  - intros k Hk. simpl in Hk. apply list_elem_of_singleton in Hk as ->.
    vm_compute. reflexivity.
Defined.

(** X8. The only function [provide] ever invokes is the callback in effect:
    [options] when it is a function, the third argument otherwise. *)
Theorem provide_invokes_only_callback (rt : Runtime) (self : Node) (keys : keys_arg)
    (options callback : jsval) (g : string) (r : answer unit) :
  settled (provide rt self keys options callback) = Called g r →
  effective_callback options callback = JFunction g.
Proof.
  by_path rt self keys options callback; try done.
  - by intros [Hf _]%invoke_called.
  - by intros [Hf _]%invoke_or_noop_called.
Qed.

Lemma provide_invokes_only_callback_witness :
  effective_callback (JFunction "done") (JFunction "other") = JFunction "done".
Proof.
  apply (provide_invokes_only_callback plain_runtime (node_with (store_of ∅) engine_ok)
           (OneCID "A") (JFunction "done") (JFunction "other") "done" (Failure not_local)).
  vm_compute. reflexivity.
Defined.

(** X9. When every given identifier is present, [options.recursive] is
    falsy and a global array [cids] exists, [provide] announces each element
    of that array once, in order, after the local checks. It succeeds
    exactly when the engine accepts every announce; otherwise the callback
    receives the error the engine gave for one of them. *)
Theorem provide_announces_cids (rt : Runtime) (self : Node) (keys : keys_arg)
    (options callback recursive : jsval) (cids : list CID) (f : string) :
  (∀ k, k ∈ normalize_keys keys → present self k) →
  get_property (effective_options options) "recursive" = Some recursive →
  truthy recursive = false →
  globals rt !! "cids" = Some cids →
  effective_callback options callback = JFunction f →
  calls (provide rt self keys options callback)
  = ((BlockstoreHas <$> normalize_keys keys) ++ (DhtProvide <$> cids))%list
  ∧ (settled (provide rt self keys options callback) = Called f (Success ())
     ↔ ∀ c, c ∈ cids → dht_provide self c = Success ())
  ∧ (settled (provide rt self keys options callback) = Called f (Success ())
     ∨ ∃ c err, c ∈ cids ∧ dht_provide self c = Failure err
         ∧ settled (provide rt self keys options callback) = Called f (Failure err)).
Proof.
  intros Hall Hp Ht Hg Hf.
  split; [|split].
  - by rewrite (provide_nonrecursive_global rt self keys options callback Hall _ _ _ Hg Hp Ht Hf).
  - by apply (provide_nonrecursive_global_success rt self keys options callback Hall recursive cids).
  - rewrite (provide_nonrecursive_global rt self keys options callback Hall _ _ _ Hg Hp Ht Hf).
    simpl. destruct (each_join _) as [err|[]] eqn:Hj; [right|by left].
    apply each_join_failure, arrived_elem_of in Hj as (c & Hc & Hans).
    by exists c, err.
Qed.

Lemma provide_announces_cids_witness :
  calls (provide (runtime_with_cids ["A"; "B"]) (node_with (store_of {["A"]}) engine_rejects_B)
           (OneCID "A") (JFunction "done") JUndefined)
  = ((BlockstoreHas <$> ["A"]) ++ (DhtProvide <$> ["A"; "B"]))%list
  ∧ (settled (provide (runtime_with_cids ["A"; "B"]) (node_with (store_of {["A"]}) engine_rejects_B)
                (OneCID "A") (JFunction "done") JUndefined) = Called "done" (Success ())
     ↔ ∀ c, c ∈ ["A"; "B"] → engine_rejects_B c = Success ())
  ∧ (settled (provide (runtime_with_cids ["A"; "B"]) (node_with (store_of {["A"]}) engine_rejects_B)
                (OneCID "A") (JFunction "done") JUndefined) = Called "done" (Success ())
     ∨ ∃ c err, c ∈ ["A"; "B"] ∧ engine_rejects_B c = Failure err
         ∧ settled (provide (runtime_with_cids ["A"; "B"])
                      (node_with (store_of {["A"]}) engine_rejects_B)
                      (OneCID "A") (JFunction "done") JUndefined) = Called "done" (Failure err)).
Proof.
  apply (provide_announces_cids (runtime_with_cids ["A"; "B"])
           (node_with (store_of {["A"]}) engine_rejects_B)
           (OneCID "A") (JFunction "done") JUndefined JUndefined ["A"; "B"] "done").
  - intros k Hk. simpl in Hk. apply list_elem_of_singleton in Hk as ->.
    vm_compute. reflexivity.
  - reflexivity.
  - reflexivity.
  - vm_compute. reflexivity.
  - reflexivity.
Defined.

(** X10. [provide] makes up no error but its own: an error passed to the
    callback is the error of the gate, an error the store gave for one of
    the given identifiers, or an error the engine gave for an announce. *)
Theorem provide_error_origin (rt : Runtime) (self : Node) (keys : keys_arg)
    (options callback : jsval) (f : string) (e : JsError) :
  settled (provide rt self keys options callback) = Called f (Failure e) →
  e = not_local
  ∨ (∃ k, k ∈ normalize_keys keys ∧ blockstore_has self k = Failure e)
  ∨ (∃ cids c, globals rt !! "cids" = Some cids ∧ c ∈ cids
               ∧ dht_provide self c = Failure e).
Proof.
  by_path rt self keys options callback; try done.
  - intros [_ Heq]%invoke_called. injection Heq as ->.
    destruct Herr as [->|Hstore]; [by left|by right; left].
  - intros [_ Hjoin]%invoke_or_noop_called. right. right.
    symmetry in Hjoin.
    apply each_join_failure, arrived_elem_of in Hjoin as (c & Hc & Hans).
    by exists cids, c.
Qed.

Lemma provide_error_origin_witness :
  Error "no route" = not_local
  ∨ (∃ k, k ∈ ["A"] ∧ store_of {["A"]} k = Failure (Error "no route"))
  ∨ (∃ cids c, globals (runtime_with_cids ["A"; "B"]) !! "cids" = Some cids ∧ c ∈ cids
               ∧ engine_rejects_B c = Failure (Error "no route")).
Proof.
  apply (provide_error_origin (runtime_with_cids ["A"; "B"])
           (node_with (store_of {["A"]}) engine_rejects_B)
           (OneCID "A") (JObject []) (JFunction "done") "done" (Error "no route")).
  vm_compute. reflexivity.
Defined.


